(** * MC88100 subset simulator (CPSC 3300): shallow embedding and properties

    The repository holds two C programs that share almost all of their text:

    - [MC88100 RISC Instruction Simulator/sim.c], the plain simulator, and
    - [MC88100 Simulator with Cache/sim.c], the same simulator with a
      data-cache directory ([cache_init], [cache_access], [cache_stats]) that
      is consulted by the load and store handlers.

    Conventions of the embedding.

    - A C [int] is a [Z] in [-2^31, 2^31); arithmetic results are brought back
      into that range with [sint32] (two's complement wrap-around).  An
      [unsigned int] is a [Z] in [0, 2^32), normalised with [uint32].
    - [>>] on an [int] is the arithmetic shift ([Z.shiftr] on the signed
      value), which is what [ext] relies on; [>>] on an [unsigned int] is the
      logical shift.  [<<] keeps the low 32 bits of the mathematical result.
    - The global arrays ([mem], [reg], [valid], [dirty], [tag], [lru]) are
      finite maps read with default 0: C zero-initialises globals.  Index
      checks are written out where the source has them.
    - [assert] and [exit] end a run; they are the [Stop] results of the error
      monad [res].
    - The instruction fetch [ir = mem[ fip >> 2 ]] has no bounds check.  For
      an index outside [mem] the C implementation delivers whatever it keeps
      beside the array; the source does not determine that word, so each
      program takes it from a parameter [beside], a function of the
      program's globals and the index.  Every other array access of the
      source is inside its array.
    - The trace output controlled by [verbose] is not modelled; [verbose] is 0
      unless a command-line flag is given, and it never influences the
      processor state or the counters. *)

From Stdlib Require Import ZArith Lia List Bool.
From stdpp Require Import base gmap.
Import ListNotations.
Local Open Scope Z_scope.

(** ** 32-bit integers *)

Module Int32.

Definition sint32 (z : Z) : Z := (z + 2 ^ 31) mod 2 ^ 32 - 2 ^ 31.
Definition uint32 (z : Z) : Z := z mod 2 ^ 32.

(** [a + b], [a - b] on [int]. *)
Definition add (a b : Z) : Z := sint32 (a + b).
Definition sub (a b : Z) : Z := sint32 (a - b).

(** [a << n] on [int]: the low 32 bits of the shifted value. *)
Definition shl (a n : Z) : Z := sint32 (Z.shiftl a n).

(** [a << n] as the x86 shifter computes it: the count is taken modulo 32.
    It differs from [shl] only for [n = 32], the count that [rot] produces
    when its shift amount is 0 and for which C leaves the result open. *)
Definition shl_hw (a n : Z) : Z := sint32 (Z.shiftl a (Z.land n 31)).

(** [a >> n] on [int]: arithmetic shift. *)
Definition sar (a n : Z) : Z := Z.shiftr a n.

(** [a >> n] and [a << n] on [unsigned int]. *)
Definition shru (a n : Z) : Z := Z.shiftr (uint32 a) n.
Definition shlu (a n : Z) : Z := uint32 (Z.shiftl (uint32 a) n).

(** The values an [int] can hold. *)
Definition is_int32 (z : Z) : Prop := - 2 ^ 31 <= z < 2 ^ 31.

(** C truth value of an integer. *)
Definition truthy (z : Z) : bool := negb (z =? 0).

(** [x++] on an [int] and on an [unsigned int]. *)
Definition incr (z : Z) : Z := sint32 (z + 1).
Definition incru (z : Z) : Z := uint32 (z + 1).

End Int32.
Import Int32.

(** ** The error monad of the simulator *)

(** What the process prints before it calls [exit]. *)
Inductive report : Type :=
  | too_many_words
  | unknown_instruction (ir op1 op2 d s1 s2 : Z).

Inductive stop : Type :=
  | exit_with (code : Z) (r : report)  (* printf ...; exit( code ) *)
  | assert_failed.                     (* assert( ... ) fails: abort() *)

Inductive res (A : Type) : Type :=
  | Ok (a : A)
  | Stop (e : stop).
Arguments Ok {A} a.
Arguments Stop {A} e.

Definition bind {A B : Type} (m : res A) (k : A -> res B) : res B :=
  match m with
  | Ok a => k a
  | Stop e => Stop e
  end.

Definition rmap {A B : Type} (f : A -> B) (m : res A) : res B :=
  bind m (fun a => Ok (f a)).

Notation "'do' x <- m ; k" := (bind m (fun x => k))
  (at level 10, x name, m at level 100, k at level 200).

(** Array read with the zero default of C globals. *)
Definition rd {K : Type} `{Countable K} (a : gmap K Z) (k : K) : Z :=
  default 0 (a !! k).

(** ** Text shared by the two programs *)

Module Core.

(** [#define MEM_SIZE_IN_WORDS 256*1024] *)
Definition MEM_SIZE_IN_WORDS : Z := 256 * 1024.

(** [#define INPUT_WORD_LIMIT 255] *)
Definition INPUT_WORD_LIMIT : Z := 255.

(** The global variables of the processor model. *)
Record state : Type := mkState {
  mem : gmap Z Z;
  reg : gmap Z Z;
  xip : Z;
  fip : Z;
  halt_flag : Z;
  ir : Z;
  op1 : Z;
  op2 : Z;
  d : Z;
  s1 : Z;
  s2 : Z;
  imm16 : Z;
  scaled : Z;
  inst_fetches : Z;
  memory_reads : Z;
  memory_writes : Z;
  branches : Z;
  taken_branches : Z
}.

(** All globals zero, as at program start. *)
Definition init : state :=
  mkState ∅ ∅ 0 0 0 0 0 0 0 0 0 0 0 0 0 0 0 0.

Definition set_mem (v : gmap Z Z) (s : state) : state :=
  mkState v (reg s) (xip s) (fip s) (halt_flag s) (ir s) (op1 s) (op2 s)
    (d s) (s1 s) (s2 s) (imm16 s) (scaled s) (inst_fetches s)
    (memory_reads s) (memory_writes s) (branches s) (taken_branches s).

Definition set_reg (v : gmap Z Z) (s : state) : state :=
  mkState (mem s) v (xip s) (fip s) (halt_flag s) (ir s) (op1 s) (op2 s)
    (d s) (s1 s) (s2 s) (imm16 s) (scaled s) (inst_fetches s)
    (memory_reads s) (memory_writes s) (branches s) (taken_branches s).

Definition set_xip (v : Z) (s : state) : state :=
  mkState (mem s) (reg s) v (fip s) (halt_flag s) (ir s) (op1 s) (op2 s)
    (d s) (s1 s) (s2 s) (imm16 s) (scaled s) (inst_fetches s)
    (memory_reads s) (memory_writes s) (branches s) (taken_branches s).

Definition set_fip (v : Z) (s : state) : state :=
  mkState (mem s) (reg s) (xip s) v (halt_flag s) (ir s) (op1 s) (op2 s)
    (d s) (s1 s) (s2 s) (imm16 s) (scaled s) (inst_fetches s)
    (memory_reads s) (memory_writes s) (branches s) (taken_branches s).

Definition set_halt_flag (v : Z) (s : state) : state :=
  mkState (mem s) (reg s) (xip s) (fip s) v (ir s) (op1 s) (op2 s)
    (d s) (s1 s) (s2 s) (imm16 s) (scaled s) (inst_fetches s)
    (memory_reads s) (memory_writes s) (branches s) (taken_branches s).

Definition set_ir (v : Z) (s : state) : state :=
  mkState (mem s) (reg s) (xip s) (fip s) (halt_flag s) v (op1 s) (op2 s)
    (d s) (s1 s) (s2 s) (imm16 s) (scaled s) (inst_fetches s)
    (memory_reads s) (memory_writes s) (branches s) (taken_branches s).

Definition set_inst_fetches (v : Z) (s : state) : state :=
  mkState (mem s) (reg s) (xip s) (fip s) (halt_flag s) (ir s) (op1 s) (op2 s)
    (d s) (s1 s) (s2 s) (imm16 s) (scaled s) v
    (memory_reads s) (memory_writes s) (branches s) (taken_branches s).

Definition set_memory_reads (v : Z) (s : state) : state :=
  mkState (mem s) (reg s) (xip s) (fip s) (halt_flag s) (ir s) (op1 s) (op2 s)
    (d s) (s1 s) (s2 s) (imm16 s) (scaled s) (inst_fetches s)
    v (memory_writes s) (branches s) (taken_branches s).

Definition set_memory_writes (v : Z) (s : state) : state :=
  mkState (mem s) (reg s) (xip s) (fip s) (halt_flag s) (ir s) (op1 s) (op2 s)
    (d s) (s1 s) (s2 s) (imm16 s) (scaled s) (inst_fetches s)
    (memory_reads s) v (branches s) (taken_branches s).

Definition set_branches (v : Z) (s : state) : state :=
  mkState (mem s) (reg s) (xip s) (fip s) (halt_flag s) (ir s) (op1 s) (op2 s)
    (d s) (s1 s) (s2 s) (imm16 s) (scaled s) (inst_fetches s)
    (memory_reads s) (memory_writes s) v (taken_branches s).

Definition set_taken_branches (v : Z) (s : state) : state :=
  mkState (mem s) (reg s) (xip s) (fip s) (halt_flag s) (ir s) (op1 s) (op2 s)
    (d s) (s1 s) (s2 s) (imm16 s) (scaled s) (inst_fetches s)
    (memory_reads s) (memory_writes s) (branches s) v.

(** [reg[ i ] = v] *)
Definition write_reg (i v : Z) (s : state) : state :=
  set_reg (<[i := v]> (reg s)) s.

(** [reg[ i ]] *)
Definition R (s : state) (i : Z) : Z := rd (reg s) i.

(** [mem[ i ]] *)
Definition M (s : state) (i : Z) : Z := rd (mem s) i.

(** The bounds test of the two [assert]s in [read_mem] and [write_mem]. *)
Definition word_addr_ok (word_addr : Z) : bool :=
  (word_addr >=? 0) && (word_addr <? MEM_SIZE_IN_WORDS).

(** [get_mem]: the words that [scanf( "%x", &w )] delivers until EOF are
    stored at [mem[0]], [mem[1]], ...; the input is given as the list of these
    words.  [count] is the local counter of the loop. *)
Fixpoint get_mem_from (count : Z) (input : list Z) (s : state) : res state :=
  match input with
  | [] => Ok s
  | w :: rest =>
      if count >? INPUT_WORD_LIMIT
      then Stop (exit_with 0 too_many_words)
      else get_mem_from (count + 1) rest
             (set_mem (<[count := sint32 w]> (mem s)) s)
  end.

Definition get_mem (input : list Z) (s : state) : res state :=
  get_mem_from 0 input s.

Definition read_mem (eff_addr reg_index : Z) (s : state) : res state :=
  let word_addr := sar eff_addr 2 in
  if word_addr_ok word_addr
  then Ok (set_memory_reads (incr (memory_reads s))
             (write_reg reg_index (M s word_addr) s))
  else Stop assert_failed.

Definition write_mem (eff_addr reg_index : Z) (s : state) : res state :=
  let word_addr := sar eff_addr 2 in
  if word_addr_ok word_addr
  then Ok (set_memory_writes (incr (memory_writes s))
             (set_mem (<[word_addr := R s reg_index]> (mem s)) s))
  else Stop assert_failed.

Definition decode (s : state) : state :=
  let i := ir s in
  mkState (mem s) (reg s) (xip s) (fip s) (halt_flag s) i
    (Z.land (sar i 26) 0x3f)
    (Z.land (sar i 10) 0x3f)
    (Z.land (sar i 21) 0x1f)
    (Z.land (sar i 16) 0x1f)
    (Z.land i 0x1f)
    (Z.land i 0xffff)
    (Z.land (sar i 9) 1)
    (inst_fetches s) (memory_reads s) (memory_writes s)
    (branches s) (taken_branches s).

Definition halt (s : state) : state := set_halt_flag 1 s.

Definition imm_lda (s : state) : state :=
  write_reg (d s) (Int32.add (R s (s1 s)) (imm16 s)) s.

Definition imm_add (s : state) : state :=
  write_reg (d s) (Int32.add (R s (s1 s)) (imm16 s)) s.

Definition imm_sub (s : state) : state :=
  write_reg (d s) (Int32.sub (R s (s1 s)) (imm16 s)) s.

(** [br]: the local [d26] is followed through its four assignments. *)
Definition br (s : state) : res state :=
  let d26 := Z.land (ir s) 0x03ffffff in
  if d26 =? 0 then Stop assert_failed else
  let d26 := shl d26 6 in
  let d26 := sar d26 6 in
  let s := set_fip (Int32.add (xip s) (shl d26 2)) s in
  let s := set_branches (incr (branches s)) s in
  Ok (set_taken_branches (incr (taken_branches s)) s).

(** The condition code [flag] that [bcnd] computes from [reg[s1]]. *)
Definition bcnd_flag (r : Z) : Z :=
  let sign := shru r 31 in
  let zero := if shlu r 1 =? 0 then 1 else 0 in
  Z.lor (shl sign 1) zero.

Definition bcnd (s : state) : res state :=
  let d16 := Z.land (ir s) 0x0000ffff in
  if d16 =? 0 then Stop assert_failed else
  let flag := bcnd_flag (R s (s1 s)) in
  let s := set_branches (incr (branches s)) s in
  let d16 := shl d16 16 in
  let d16 := sar d16 16 in
  if Z.land 1 (shru (d s) flag) =? 1
  then
    let s := set_fip (Int32.add (xip s) (shl d16 2)) s in
    Ok (set_taken_branches (incr (taken_branches s)) s)
  else Ok s.

Definition ext (s : state) : state :=
  write_reg (d s) (sar (R s (s1 s)) (s2 s)) s.

Definition extu (s : state) : state :=
  let u := uint32 (R s (s1 s)) in
  let u := shru u (s2 s) in
  write_reg (d s) (sint32 u) s.

Definition mak (s : state) : state :=
  write_reg (d s) (shl (R s (s1 s)) (s2 s)) s.

(** The expression [(v << (32 - n)) | (v >> n)] of [rot], on [int] operands,
    with the left shift given as a parameter. *)
Definition rot_word_with (shift_left : Z -> Z -> Z) (v n : Z) : Z :=
  Z.lor (shift_left v (32 - n)) (sar v n).

Definition rot_word : Z -> Z -> Z := rot_word_with shl.

Definition rot_with (shift_left : Z -> Z -> Z) (s : state) : state :=
  write_reg (d s) (rot_word_with shift_left (R s (s1 s)) (s2 s)) s.

Definition rot : state -> state := rot_with shl.

Definition lda (s : state) : state :=
  if truthy (scaled s)
  then write_reg (d s) (Int32.add (R s (s1 s)) (shl (R s (s2 s)) 2)) s
  else write_reg (d s) (Int32.add (R s (s1 s)) (R s (s2 s))) s.

Definition add (s : state) : state :=
  write_reg (d s) (Int32.add (R s (s1 s)) (R s (s2 s))) s.

Definition sub (s : state) : state :=
  write_reg (d s) (Int32.sub (R s (s1 s)) (R s (s2 s))) s.

Definition unknown_op (s : state) : res state :=
  Stop (exit_with (-1)
          (unknown_instruction (ir s) (op1 s) (op2 s) (d s) (s1 s) (s2 s))).

(** The word that [mem[ word_addr ]] delivers to the instruction fetch:
    the word of [mem] inside the array, the word found beside it outside. *)
Definition fetched_word (beside : Z -> Z) (s : state) (word_addr : Z) : Z :=
  if word_addr_ok word_addr then M s word_addr else beside word_addr.

(** The first four statements of the loop body of [main]; the read of
    [mem[ fip >> 2 ]] is unchecked. *)
Definition fetch (beside : Z -> Z) (s : state) : state :=
  let s := set_ir (fetched_word beside s (sar (fip s) 2)) s in
  let s := set_xip (fip s) s in
  let s := set_fip (Int32.add (xip s) 4) s in
  set_inst_fetches (incr (inst_fetches s)) s.

(** [reg[ 0 ] = 0;] at the end of the loop body. *)
Definition zero_r0 (s : state) : state := write_reg 0 0 s.

(** The five numbers printed under "execution statistics". *)
Record statistics : Type := mkStats {
  stat_inst_fetches : Z;
  stat_memory_reads : Z;
  stat_memory_writes : Z;
  stat_branches : Z;
  stat_taken_branches : Z
}.

Definition statistics_of (s : state) : statistics :=
  mkStats (inst_fetches s) (memory_reads s) (memory_writes s)
    (branches s) (taken_branches s).

End Core.

(** ** The plain simulator: [MC88100 RISC Instruction Simulator/sim.c] *)

Module Sim.
Import Core.

(** How a run of the [while( !halt_flag )] loop ends. *)
Inductive outcome : Type :=
  | Halted (s : state)
  | Stopped (e : stop)
  | OutOfFuel (s : state).

(** What the process does, seen from outside. *)
Inductive exit_status : Type :=
  | Returned (code : Z) (st : statistics) (final : state)
  | Ended (e : stop)
  | Running (s : state).

Definition imm_ld (s : state) : res state :=
  let address := Int32.add (R s (s1 s)) (imm16 s) in
  read_mem address (d s) s.

Definition imm_st (s : state) : res state :=
  let address := Int32.add (R s (s1 s)) (imm16 s) in
  write_mem address (d s) s.

Definition ld (s : state) : res state :=
  if truthy (scaled s) then
    let address := Int32.add (R s (s1 s)) (shl (R s (s2 s)) 2) in
    read_mem address (d s) s
  else
    let address := Int32.add (R s (s1 s)) (R s (s2 s)) in
    read_mem address (d s) s.

Definition st (s : state) : res state :=
  if truthy (scaled s) then
    let address := Int32.add (R s (s1 s)) (shl (R s (s2 s)) 2) in
    write_mem address (d s) s
  else
    let address := Int32.add (R s (s1 s)) (R s (s2 s)) in
    write_mem address (d s) s.

(** The two nested [switch] statements of [main]. *)
Definition dispatch (s : state) : res state :=
  match op1 s with
  | 0x00 => Ok (halt s)
  | 0x05 => imm_ld s
  | 0x09 => imm_st s
  | 0x0d => Ok (imm_lda s)
  | 0x1c => Ok (imm_add s)
  | 0x1d => Ok (imm_sub s)
  | 0x30 => br s
  | 0x3a => bcnd s
  | 0x3c =>
      match op2 s with
      | 0x24 => Ok (ext s)
      | 0x26 => Ok (extu s)
      | 0x28 => Ok (mak s)
      | 0x2a => Ok (rot s)
      | _ => unknown_op s
      end
  | 0x3d =>
      match op2 s with
      | 0x05 => ld s
      | 0x09 => st s
      | 0x0d => Ok (lda s)
      | 0x1c => Ok (add s)
      | 0x1d => Ok (sub s)
      | _ => unknown_op s
      end
  | _ => unknown_op s
  end.

Section Loop.

(** The words beside [mem] in this program, for each state of its globals. *)
Variable beside : state -> Z -> Z.

(** One turn of the [while] loop of [main]: fetch, decode, execute, and
    the final [reg[ 0 ] = 0]. *)
Definition step (s : state) : res state :=
  do s <- dispatch (decode (fetch (beside s) s));
  Ok (zero_r0 s).

Fixpoint run (fuel : nat) (s : state) : outcome :=
  if truthy (halt_flag s) then Halted s else
  match fuel with
  | O => OutOfFuel s
  | S fuel' =>
      match step s with
      | Ok s' => run fuel' s'
      | Stop e => Stopped e
      end
  end.

(** The words of the instructions that the loop executes, in order. *)
Fixpoint trace (fuel : nat) (s : state) : list Z :=
  if truthy (halt_flag s) then [] else
  match fuel with
  | O => []
  | S fuel' =>
      ir (fetch (beside s) s)
      :: match step s with
         | Ok s' => trace fuel' s'
         | Stop _ => []
         end
  end.


(** [main] without command-line arguments: load the image from the input
    words, run the loop, print the statistics and return 0. *)
Definition main (fuel : nat) (input : list Z) : exit_status :=
  match get_mem input init with
  | Stop e => Ended e
  | Ok s =>
      match run fuel s with
      | Halted s' => Returned 0 (statistics_of s') s'
      | Stopped e => Ended e
      | OutOfFuel s' => Running s'
      end
  end.


End Loop.

End Sim.

(** ** The cache directory of [MC88100 Simulator with Cache/sim.c] *)

Module Cache.

(** [#define LINES_PER_BANK 64] *)
Definition LINES_PER_BANK : Z := 64.

(** The global variables of the cache model; the two-dimensional arrays are
    indexed by the pair (bank, line). *)
Record state : Type := mkCache {
  valid : gmap (Z * Z) Z;
  dirty : gmap (Z * Z) Z;
  tag : gmap (Z * Z) Z;
  lru : gmap Z Z;
  cache_reads : Z;
  cache_writes : Z;
  hits : Z;
  misses : Z;
  write_backs : Z
}.

Definition set_valid (v : gmap (Z * Z) Z) (c : state) : state :=
  mkCache v (dirty c) (tag c) (lru c)
    (cache_reads c) (cache_writes c) (hits c) (misses c) (write_backs c).

Definition set_dirty (v : gmap (Z * Z) Z) (c : state) : state :=
  mkCache (valid c) v (tag c) (lru c)
    (cache_reads c) (cache_writes c) (hits c) (misses c) (write_backs c).

Definition set_tag (v : gmap (Z * Z) Z) (c : state) : state :=
  mkCache (valid c) (dirty c) v (lru c)
    (cache_reads c) (cache_writes c) (hits c) (misses c) (write_backs c).

Definition set_lru (v : gmap Z Z) (c : state) : state :=
  mkCache (valid c) (dirty c) (tag c) v
    (cache_reads c) (cache_writes c) (hits c) (misses c) (write_backs c).

Definition set_cache_reads (v : Z) (c : state) : state :=
  mkCache (valid c) (dirty c) (tag c) (lru c)
    v (cache_writes c) (hits c) (misses c) (write_backs c).

Definition set_cache_writes (v : Z) (c : state) : state :=
  mkCache (valid c) (dirty c) (tag c) (lru c)
    (cache_reads c) v (hits c) (misses c) (write_backs c).

Definition set_hits (v : Z) (c : state) : state :=
  mkCache (valid c) (dirty c) (tag c) (lru c)
    (cache_reads c) (cache_writes c) v (misses c) (write_backs c).

Definition set_misses (v : Z) (c : state) : state :=
  mkCache (valid c) (dirty c) (tag c) (lru c)
    (cache_reads c) (cache_writes c) (hits c) v (write_backs c).

Definition set_write_backs (v : Z) (c : state) : state :=
  mkCache (valid c) (dirty c) (tag c) (lru c)
    (cache_reads c) (cache_writes c) (hits c) (misses c) v.

(** The globals before [cache_init] runs. *)
Definition zeroed : state := mkCache ∅ ∅ ∅ ∅ 0 0 0 0 0.

(** The body of the [for] loop of [cache_init] at index [i]. *)
Definition cache_init_line (c : state) (i : Z) : state :=
  let c := set_lru (<[i := 0]> (lru c)) c in
  let c := set_tag (<[(0, i) := 0]> (tag c)) c in
  let c := set_dirty (<[(0, i) := 0]> (dirty c)) c in
  let c := set_valid (<[(0, i) := 0]> (valid c)) c in
  let c := set_tag (<[(1, i) := 0]> (tag c)) c in
  let c := set_dirty (<[(1, i) := 0]> (dirty c)) c in
  set_valid (<[(1, i) := 0]> (valid c)) c.

Definition cache_init (c : state) : state :=
  let c := fold_left cache_init_line (seqZ 0 LINES_PER_BANK) c in
  mkCache (valid c) (dirty c) (tag c) (lru c) 0 0 0 0 0.

(** The five numbers printed by [cache_stats]. *)
Record statistics : Type := mkStats {
  stat_cache_reads : Z;
  stat_cache_writes : Z;
  stat_hits : Z;
  stat_misses : Z;
  stat_write_backs : Z
}.

Definition cache_stats (c : state) : statistics :=
  mkStats (cache_reads c) (cache_writes c) (hits c) (misses c)
    (write_backs c).

(** The bank chosen for replacement in the miss branch of [cache_access]. *)
Definition replacement_bank (c : state) (addr_index : Z) : Z :=
  if negb (truthy (rd (valid c) (0, addr_index))) then 0
  else if negb (truthy (rd (valid c) (1, addr_index))) then 1
  else if truthy (rd (lru c) addr_index) then 0 else 1.

(** The miss branch of [cache_access]: returns the bank with the state. *)
Definition cache_miss (addr_index addr_tag : Z) (c : state) : Z * state :=
  let c := set_misses (incru (misses c)) c in
  let bank := replacement_bank c addr_index in
  let c :=
    if truthy (rd (valid c) (bank, addr_index))
       && truthy (rd (dirty c) (bank, addr_index))
    then set_write_backs (incru (write_backs c)) c
    else c in
  let c := set_valid (<[(bank, addr_index) := 1]> (valid c)) c in
  let c := set_dirty (<[(bank, addr_index) := 0]> (dirty c)) c in
  let c := set_tag (<[(bank, addr_index) := addr_tag]> (tag c)) c in
  (bank, c).

(** [cache_access]: the [int] address of the callers is converted to the
    [unsigned int] parameter, which [shru] does; [type] is 0 or 1 at every
    call. *)
Definition cache_access (address type : Z) (c : state) : state :=
  let c :=
    if type =? 0
    then set_cache_reads (incru (cache_reads c)) c
    else set_cache_writes (incru (cache_writes c)) c in
  let addr_index := Z.land (shru address 3) 0x3f in
  let addr_tag := shru address 9 in
  let '(bank, c) :=
    if truthy (rd (valid c) (0, addr_index))
       && (addr_tag =? rd (tag c) (0, addr_index))
    then (0, set_hits (incru (hits c)) c)
    else if truthy (rd (valid c) (1, addr_index))
            && (addr_tag =? rd (tag c) (1, addr_index))
    then (1, set_hits (incru (hits c)) c)
    else cache_miss addr_index addr_tag c in
  let c := set_lru (<[addr_index := bank]> (lru c)) c in
  if type =? 1
  then set_dirty (<[(bank, addr_index) := 1]> (dirty c)) c
  else c.

End Cache.

(** ** The simulator with cache: [MC88100 Simulator with Cache/sim.c] *)

Module CacheSim.
Import Core.

(** The globals of this program: those of the processor and those of the
    cache directory. *)
Record state : Type := mkSim {
  core : Core.state;
  cache : Cache.state
}.

(** Run a handler of the shared text on the processor globals. *)
Definition on_core (f : Core.state -> res Core.state) (cs : state)
  : res state :=
  do s <- f (core cs); Ok (mkSim s (cache cs)).

Definition pure_core (f : Core.state -> Core.state) (cs : state)
  : res state :=
  Ok (mkSim (f (core cs)) (cache cs)).

(** [cache_access( address, type );] *)
Definition with_cache_access (address type : Z) (cs : state) : state :=
  mkSim (core cs) (Cache.cache_access address type (cache cs)).

Definition imm_ld (cs : state) : res state :=
  let s := core cs in
  let address := Int32.add (R s (s1 s)) (imm16 s) in
  do cs <- on_core (read_mem address (d s)) cs;
  Ok (with_cache_access address 0 cs).

Definition imm_st (cs : state) : res state :=
  let s := core cs in
  let address := Int32.add (R s (s1 s)) (imm16 s) in
  do cs <- on_core (write_mem address (d s)) cs;
  Ok (with_cache_access address 1 cs).

Definition ld (cs : state) : res state :=
  let s := core cs in
  if truthy (scaled s) then
    let address := Int32.add (R s (s1 s)) (shl (R s (s2 s)) 2) in
    do cs <- on_core (read_mem address (d s)) cs;
    Ok (with_cache_access address 0 cs)
  else
    let address := Int32.add (R s (s1 s)) (R s (s2 s)) in
    do cs <- on_core (read_mem address (d s)) cs;
    Ok (with_cache_access address 0 cs).

Definition st (cs : state) : res state :=
  let s := core cs in
  if truthy (scaled s) then
    let address := Int32.add (R s (s1 s)) (shl (R s (s2 s)) 2) in
    do cs <- on_core (write_mem address (d s)) cs;
    Ok (with_cache_access address 1 cs)
  else
    let address := Int32.add (R s (s1 s)) (R s (s2 s)) in
    do cs <- on_core (write_mem address (d s)) cs;
    Ok (with_cache_access address 1 cs).

Definition dispatch (cs : state) : res state :=
  match op1 (core cs) with
  | 0x00 => pure_core halt cs
  | 0x05 => imm_ld cs
  | 0x09 => imm_st cs
  | 0x0d => pure_core imm_lda cs
  | 0x1c => pure_core imm_add cs
  | 0x1d => pure_core imm_sub cs
  | 0x30 => on_core br cs
  | 0x3a => on_core bcnd cs
  | 0x3c =>
      match op2 (core cs) with
      | 0x24 => pure_core ext cs
      | 0x26 => pure_core extu cs
      | 0x28 => pure_core mak cs
      | 0x2a => pure_core rot cs
      | _ => on_core unknown_op cs
      end
  | 0x3d =>
      match op2 (core cs) with
      | 0x05 => ld cs
      | 0x09 => st cs
      | 0x0d => pure_core lda cs
      | 0x1c => pure_core add cs
      | 0x1d => pure_core sub cs
      | _ => on_core unknown_op cs
      end
  | _ => on_core unknown_op cs
  end.

Inductive outcome : Type :=
  | Halted (cs : state)
  | Stopped (e : stop)
  | OutOfFuel (cs : state).

Inductive exit_status : Type :=
  | Returned (code : Z) (st : Core.statistics) (cst : Cache.statistics)
      (final : state)
  | Ended (e : stop)
  | Running (cs : state).

Section Loop.

(** The words beside [mem] in this program, for each state of its globals,
    those of the cache directory included. *)
Variable beside : state -> Z -> Z.

Definition step (cs : state) : res state :=
  do cs <- dispatch
             (mkSim (decode (fetch (beside cs) (core cs))) (cache cs));
  pure_core zero_r0 cs.

Fixpoint run (fuel : nat) (cs : state) : outcome :=
  if truthy (halt_flag (core cs)) then Halted cs else
  match fuel with
  | O => OutOfFuel cs
  | S fuel' =>
      match step cs with
      | Ok cs' => run fuel' cs'
      | Stop e => Stopped e
      end
  end.

Fixpoint trace (fuel : nat) (cs : state) : list Z :=
  if truthy (halt_flag (core cs)) then [] else
  match fuel with
  | O => []
  | S fuel' =>
      ir (fetch (beside cs) (core cs))
      :: match step cs with
         | Ok cs' => trace fuel' cs'
         | Stop _ => []
         end
  end.

(** [main]: [get_mem(); cache_init();], the loop, the execution statistics,
    then [cache_stats()]. *)
Definition main (fuel : nat) (input : list Z) : exit_status :=
  match get_mem input init with
  | Stop e => Ended e
  | Ok s =>
      match run fuel (mkSim s (Cache.cache_init Cache.zeroed)) with
      | Halted cs =>
          Returned 0 (statistics_of (core cs)) (Cache.cache_stats (cache cs))
            cs
      | Stopped e => Ended e
      | OutOfFuel cs => Running cs
      end
  end.

End Loop.

End CacheSim.

(** ** Forgetting the cache *)



(** ** Vocabulary of the statements *)

(** Sign extension of a [bits]-wide field value [f], [0 <= f < 2^bits]. *)
Definition sign_extend (bits f : Z) : Z :=
  if Z.testbit f (bits - 1) then f - 2 ^ bits else f.

(** [new] is [old] after [old++] on an [int]: one more, in 32-bit
    arithmetic, and exactly one more whenever that is representable. *)
Definition incremented (old new : Z) : Prop :=
  new = sint32 (old + 1) /\ (is_int32 (old + 1) -> new = old + 1).

(** The same for an [unsigned int] counter. *)
Definition incremented_u (old new : Z) : Prop :=
  new = uint32 (old + 1) /\ (0 <= old + 1 < 2 ^ 32 -> new = old + 1).

(** The memory image that [get_mem] builds from the input words, starting at
    word index [count]. *)
Fixpoint loaded (count : Z) (input : list Z) (m : gmap Z Z) : gmap Z Z :=
  match input with
  | [] => m
  | w :: rest => loaded (count + 1) rest (<[count := sint32 w]> m)
  end.

(** The condition code as the claim words it: bit 1 is the sign bit, bit 0
    is 1 exactly when the register value is zero. *)
Definition flag_zero_value (r : Z) : Z :=
  Z.lor (Z.shiftl (if r <? 0 then 1 else 0) 1) (if r =? 0 then 1 else 0).

(** The rotation as the comment before [rot] draws it ("value 2 = AB logical
    shift right n bits"): the right shift is the logical one, as in [extu]. *)
Definition rot_word_logical (v n : Z) : Z :=
  Z.lor (shl v (32 - n)) (sint32 (shru v n)).

(** [add r1,r0,1; rot r2,r1,1; rot r3,r2,31; halt]. *)
Definition rot_twice_image : list Z :=
  [0x70200001; 0xf041a801; 0xf062a81f; 0x00000000].

(** Two examples of what a C implementation may keep beside [mem].  In the
    first every word beside the array is 0.  In the second the five counters
    of the cache, which the program with cache declares just before [mem],
    are the five words in front of [mem[0]], in declaration order; an
    [unsigned int] read as an instruction word is converted to [int]. *)
Definition beside_zero : Core.state -> Z -> Z := fun _ _ => 0.

Definition beside_cache_counters (cs : CacheSim.state) (word_addr : Z) : Z :=
  let c := CacheSim.cache cs in
  match word_addr with
  | -1 => sint32 (Cache.write_backs c)
  | -2 => sint32 (Cache.misses c)
  | -3 => sint32 (Cache.hits c)
  | -4 => sint32 (Cache.cache_writes c)
  | -5 => sint32 (Cache.cache_reads c)
  | _ => 0
  end.



(** The four instructions that reference memory. *)
Inductive mem_instr : Type := op_imm_ld | op_imm_st | op_ld | op_st.

Definition is_load (i : mem_instr) : bool :=
  match i with
  | op_imm_ld | op_ld => true
  | op_imm_st | op_st => false
  end.

(** The local [address] that the handler of [i] computes from the decoded
    fields: register plus zero-extended immediate, register plus register,
    or register plus register scaled by 4. *)
Definition effective_address (i : mem_instr) (s : Core.state) : Z :=
  match i with
  | op_imm_ld | op_imm_st =>
      Int32.add (Core.R s (Core.s1 s)) (Core.imm16 s)
  | op_ld | op_st =>
      if truthy (Core.scaled s)
      then Int32.add (Core.R s (Core.s1 s)) (shl (Core.R s (Core.s2 s)) 2)
      else Int32.add (Core.R s (Core.s1 s)) (Core.R s (Core.s2 s))
  end.

Definition plain_handler (i : mem_instr) : Core.state -> res Core.state :=
  match i with
  | op_imm_ld => Sim.imm_ld
  | op_imm_st => Sim.imm_st
  | op_ld => Sim.ld
  | op_st => Sim.st
  end.

Definition cached_handler (i : mem_instr)
  : CacheSim.state -> res CacheSim.state :=
  match i with
  | op_imm_ld => CacheSim.imm_ld
  | op_imm_st => CacheSim.imm_st
  | op_ld => CacheSim.ld
  | op_st => CacheSim.st
  end.

(** ** Facts about 32-bit arithmetic *)

Section Int32Facts.

Lemma sint32_range (z : Z) : is_int32 (sint32 z).
Proof.
  unfold is_int32, sint32.
  pose proof (Z.mod_pos_bound (z + 2 ^ 31) (2 ^ 32) ltac:(lia)). lia.
Qed.

Lemma sint32_id (z : Z) : is_int32 z -> sint32 z = z.
Proof.
  unfold is_int32, sint32. intros Hz.
  rewrite Z.mod_small by lia. lia.
Qed.

Lemma uint32_range (z : Z) : 0 <= uint32 z < 2 ^ 32.
Proof. unfold uint32. apply Z.mod_pos_bound. lia. Qed.

Lemma uint32_id (z : Z) : 0 <= z < 2 ^ 32 -> uint32 z = z.
Proof. unfold uint32. intros Hz. apply Z.mod_small. lia. Qed.

Lemma incr_incremented (z : Z) : incremented z (incr z).
Proof.
  split; [reflexivity |]. intros Hz. unfold incr. now apply sint32_id.
Qed.

Lemma incru_incremented (z : Z) : incremented_u z (incru z).
Proof.
  split; [reflexivity |]. intros Hz. unfold incru. now apply uint32_id.
Qed.

(** A left shift by the full word width leaves nothing in the low 32 bits. *)
Lemma shl_32 (v : Z) : shl v 32 = 0.
Proof.
  unfold shl, sint32. rewrite Z.shiftl_mul_pow2 by lia.
  rewrite Z.add_comm, Z_mod_plus_full. reflexivity.
Qed.

(** The x86 shifter reduces the count 32 to 0. *)
Lemma shl_hw_32 (v : Z) : is_int32 v -> shl_hw v 32 = v.
Proof.
  intros Hv. unfold shl_hw. change (Z.land 32 31) with 0.
  rewrite Z.shiftl_0_r. now apply sint32_id.
Qed.

Lemma sar_0 (v : Z) : sar v 0 = v.
Proof. apply Z.shiftr_0_r. Qed.

End Int32Facts.

(** ** Facts about the register file and the memory *)

Section ArrayReads.
Context {K : Type} `{Countable K}.

Lemma rd_insert_eq (a : gmap K Z) (k : K) (v : Z) : rd (<[k := v]> a) k = v.
Proof. unfold rd. now rewrite lookup_insert_eq. Qed.

Lemma rd_insert_ne (a : gmap K Z) (k j : K) (v : Z) :
  k <> j -> rd (<[k := v]> a) j = rd a j.
Proof. intros Hkj. unfold rd. now rewrite lookup_insert_ne. Qed.

End ArrayReads.

Lemma truthy_true (z : Z) : truthy z = true <-> z <> 0.
Proof.
  unfold truthy. destruct (Z.eqb_spec z 0); cbn; split; intros; congruence.
Qed.

Lemma truthy_false (z : Z) : truthy z = false <-> z = 0.
Proof.
  unfold truthy. destruct (Z.eqb_spec z 0); cbn; split; intros; congruence.
Qed.

Section Arrays.
Import Core.

Lemma R_write_reg_eq (s : state) (i v : Z) : R (write_reg i v s) i = v.
Proof. unfold R, write_reg, rd. cbn. now rewrite lookup_insert_eq. Qed.

Lemma R_write_reg_ne (s : state) (i j v : Z) :
  i <> j -> R (write_reg i v s) j = R s j.
Proof.
  intros Hij. unfold R, write_reg, rd. cbn.
  now rewrite lookup_insert_ne.
Qed.

Lemma R_zero_r0 (s : state) : R (zero_r0 s) 0 = 0.
Proof. apply R_write_reg_eq. Qed.

End Arrays.

(** ** Rotate *)

Section Rotate.
Import Core.

Lemma rot_word_0 (v : Z) : rot_word v 0 = v.
Proof.
  unfold rot_word, rot_word_with. change (32 - 0) with 32.
  rewrite shl_32, sar_0. apply Z.lor_0_l.
Qed.

Lemma rot_word_hw_0 (v : Z) : is_int32 v -> rot_word_with shl_hw v 0 = v.
Proof.
  intros Hv. unfold rot_word_with. change (32 - 0) with 32.
  rewrite shl_hw_32, sar_0 by assumption. apply Z.lor_diag.
Qed.

(** C5.  When the shift amount field [s2] is 0, [rot] stores the value of
    [reg[s1]] unchanged in [reg[d]].  The count of the left shift is then 32;
    the result is the same whether that shift leaves 0 (first part) or, as on
    x86, leaves the operand (second part, for a register holding an [int]). *)
Theorem rot_by_zero_unchanged (s : state) :
  s2 s = 0 ->
  R (rot s) (d s) = R s (s1 s)
  /\ (is_int32 (R s (s1 s)) -> R (rot_with shl_hw s) (d s) = R s (s1 s)).
Proof.
  intros Hn. unfold rot, rot_with. rewrite !R_write_reg_eq, Hn. split.
  - apply rot_word_0.
  - apply rot_word_hw_0.
Qed.

Lemma rot_by_zero_unchanged_witness :
  let s := decode (set_ir (sint32 0xf041a800)
             (write_reg 1 (-1234567) init)) in
  s2 s = 0 /\ R (rot s) (d s) = R s (s1 s).
Proof.
  intros s. split; [reflexivity |].
  exact (proj1 (rot_by_zero_unchanged s eq_refl)).
Defined.

Lemma sint32_mod (z : Z) : sint32 z mod 2 ^ 32 = z mod 2 ^ 32.
Proof. unfold sint32. Z.div_mod_to_equations. lia. Qed.

Lemma sint32_testbit (z i : Z) :
  0 <= i < 32 -> Z.testbit (sint32 z) i = Z.testbit z i.
Proof.
  intros Hi.
  rewrite <- (Z.mod_pow2_bits_low (sint32 z) 32 i) by lia.
  rewrite sint32_mod. apply Z.mod_pow2_bits_low. lia.
Qed.

(** The two operands of the [|] in the logical rotation have no bit in
    common, so the [|] is a sum. *)
Lemma rot_word_logical_sum (v n : Z) :
  1 <= n <= 31 ->
  rot_word_logical v n
  = sint32 (v * 2 ^ (32 - n)) + (v mod 2 ^ 32) / 2 ^ n.
Proof.
  intros Hn. unfold rot_word_logical, shl, shru, uint32.
  rewrite Z.shiftl_mul_pow2, Z.shiftr_div_pow2 by lia.
  assert (Hp : 0 < 2 ^ n) by (apply Z.pow_pos_nonneg; lia).
  assert (Hq : 2 ^ n * 2 ^ (32 - n) = 2 ^ 32).
  { rewrite <- Z.pow_add_r by lia. f_equal. lia. }
  assert (Hpn : 2 <= 2 ^ n).
  { change 2 with (2 ^ 1) at 1. apply Z.pow_le_mono_r; lia. }
  assert (Hb : 0 <= (v mod 2 ^ 32) / 2 ^ n < 2 ^ (32 - n)).
  { pose proof (Z.mod_pos_bound v (2 ^ 32) ltac:(lia)) as Hu.
    split; [apply Z.div_pos; lia |].
    apply Z.div_lt_upper_bound; lia. }
  assert (Hb31 : 2 ^ (32 - n) <= 2 ^ 31) by (apply Z.pow_le_mono_r; lia).
  rewrite (sint32_id ((v mod 2 ^ 32) / 2 ^ n)) by (unfold is_int32; lia).
  rewrite <- Z.lxor_lor, <- Z.add_nocarry_lxor; try reflexivity.
  all: apply Z.bits_inj'; intros i Hi; rewrite Z.land_spec, Z.bits_0;
    destruct (Z.lt_ge_cases i (32 - n)) as [Hlo | Hhi].
  all: try (rewrite sint32_testbit, Z.mul_pow2_bits_low by lia; reflexivity).
  all: rewrite andb_false_iff; right;
    apply (Z.bits_above_log2 _ i); [lia |];
    destruct (Z.eq_dec ((v mod 2 ^ 32) / 2 ^ n) 0) as [-> | Hnz];
      [cbn; lia |];
    apply Z.lt_le_trans with (32 - n); [| lia];
    apply Z.log2_lt_pow2; lia.
Qed.

(** Case analysis on a shift amount between 1 and 31. *)
Ltac for_each_amount n k tac :=
  lazymatch k with
  | 32 => exfalso; lia
  | _ =>
      destruct (Z.eq_dec n k) as [-> | ?];
      [ tac
      | let k' := eval compute in (k + 1) in for_each_amount n k' tac ]
  end.

(** The rotation of the comment is a rotation: rotating by [n] and then by
    [32 - n] gives the word back. *)
Lemma rot_word_logical_round_trip (v n : Z) :
  is_int32 v -> 1 <= n <= 31 ->
  rot_word_logical (rot_word_logical v n) (32 - n) = v.
Proof.
  intros Hv Hn.
  rewrite (rot_word_logical_sum _ (32 - n)), (rot_word_logical_sum v n)
    by lia.
  replace (32 - (32 - n)) with n by lia.
  unfold is_int32 in Hv. unfold sint32.
  for_each_amount n 1
    ltac:(repeat match goal with H : _ <> _ |- _ => clear H end;
          clear Hn;
          match goal with
          | |- context [32 - ?k] =>
              let m := eval compute in (32 - k) in change (32 - k) with m
          end;
          Z.div_mod_to_equations; lia).
Qed.

(** On a word without sign bit the [>>] of [rot] is the logical shift, and
    [rot] is the rotation of the comment. *)
Lemma rot_word_nonneg (v n : Z) :
  0 <= v < 2 ^ 31 -> 0 <= n -> rot_word v n = rot_word_logical v n.
Proof.
  intros Hv Hn. unfold rot_word, rot_word_with, rot_word_logical, sar, shru.
  rewrite uint32_id by lia. f_equal. symmetry. apply sint32_id.
  unfold is_int32. rewrite Z.shiftr_div_pow2 by lia.
  assert (Hp : 0 < 2 ^ n) by (apply Z.pow_pos_nonneg; lia).
  split.
  - pose proof (Z.div_pos v (2 ^ n) ltac:(lia) Hp). lia.
  - apply Z.le_lt_trans with v; [| lia].
    apply Z.div_le_upper_bound; [lia |]. nia.
Qed.

(** C7.  Rotating 1 right by 1 and the result right by 31 does not give 1
    back: the first [rot] yields the word with only the sign bit set, and
    the [>>] of the second one, applied to an [int], copies that sign bit
    into every position, so the result is -1 (all ones).  The program
    [rot_twice_image] shows it on the simulator: it halts with 1 in [r1] and
    -1 in [r3].  With the logical right shift that the comment before [rot]
    describes, the same input does come back. *)
Theorem rot_round_trip_fails :
  rot_word 1 1 = - 2 ^ 31
  /\ rot_word (rot_word 1 1) (32 - 1) = -1
  /\ rot_word (rot_word 1 1) (32 - 1) <> 1
  /\ (forall beside, exists final,
        Sim.main beside 4 rot_twice_image
          = Sim.Returned 0 (mkStats 4 0 0 0 0) final
        /\ R final 1 = 1 /\ R final 2 = - 2 ^ 31 /\ R final 3 = -1)
  /\ rot_word_logical (rot_word_logical 1 1) (32 - 1) = 1.
Proof.
  split; [reflexivity |]. split; [reflexivity |].
  split; [vm_compute; discriminate |]. split; [| reflexivity].
  intros beside. eexists. split; [vm_compute; reflexivity |].
  repeat split; reflexivity.
Qed.

End Rotate.

(** ** Branch displacements *)

Section Displacement.

Lemma testbit_top (bits f : Z) :
  0 < bits -> 0 <= f < 2 ^ bits ->
  Z.testbit f (bits - 1) = (2 ^ (bits - 1) <=? f).
Proof.
  intros Hb Hf.
  assert (Hp : 2 ^ bits = 2 * 2 ^ (bits - 1)).
  { rewrite <- Z.pow_succ_r by lia. f_equal. lia. }
  assert (Hq : 0 < 2 ^ (bits - 1)) by (apply Z.pow_pos_nonneg; lia).
  destruct (Z.leb_spec (2 ^ (bits - 1)) f) as [Hge | Hlt].
  - apply Z.testbit_true; [lia |].
    replace (f / 2 ^ (bits - 1)) with 1; [reflexivity |].
    apply Z.div_unique with (r := f - 2 ^ (bits - 1)); lia.
  - destruct (Z.eq_dec f 0) as [-> | Hnz]; [apply Z.testbit_0_l |].
    apply Z.bits_above_log2; [lia |].
    apply Z.log2_lt_pow2; lia.
Qed.

Lemma land_field (i bits : Z) :
  0 <= bits -> 0 <= Z.land i (Z.ones bits) < 2 ^ bits.
Proof.
  intros Hb. rewrite Z.land_ones by assumption.
  apply Z.mod_pos_bound. now apply Z.pow_pos_nonneg.
Qed.

(** [d26 << 6; d26 >> 6] sign-extends the 26-bit field of [br]. *)
Lemma extend_26 (f : Z) :
  0 <= f < 2 ^ 26 -> sar (shl f 6) 6 = sign_extend 26 f.
Proof.
  intros Hf. unfold sign_extend, sar, shl, sint32.
  rewrite testbit_top by lia.
  rewrite Z.shiftl_mul_pow2, Z.shiftr_div_pow2 by lia.
  change (26 - 1) with 25.
  destruct (Z.leb_spec (2 ^ 25) f); Z.div_mod_to_equations; lia.
Qed.

(** [d16 << 16; d16 >> 16] sign-extends the 16-bit field of [bcnd]. *)
Lemma extend_16 (f : Z) :
  0 <= f < 2 ^ 16 -> sar (shl f 16) 16 = sign_extend 16 f.
Proof.
  intros Hf. unfold sign_extend, sar, shl, sint32.
  rewrite testbit_top by lia.
  rewrite Z.shiftl_mul_pow2, Z.shiftr_div_pow2 by lia.
  change (16 - 1) with 15.
  destruct (Z.leb_spec (2 ^ 15) f); Z.div_mod_to_equations; lia.
Qed.

Lemma sign_extend_range (bits f : Z) :
  0 < bits -> 0 <= f < 2 ^ bits ->
  - 2 ^ (bits - 1) <= sign_extend bits f < 2 ^ (bits - 1).
Proof.
  intros Hb Hf. unfold sign_extend. rewrite testbit_top by lia.
  assert (Hp : 2 ^ bits = 2 * 2 ^ (bits - 1)).
  { rewrite <- Z.pow_succ_r by lia. f_equal. lia. }
  destruct (Z.leb_spec (2 ^ (bits - 1)) f); lia.
Qed.

Lemma sign_extend_zero (bits f : Z) :
  0 < bits -> 0 <= f < 2 ^ bits -> sign_extend bits f = 0 -> f = 0.
Proof.
  intros Hb Hf. unfold sign_extend. rewrite testbit_top by lia.
  destruct (Z.leb_spec (2 ^ (bits - 1)) f); lia.
Qed.

(** A word displacement of at most 26 bits, scaled by 4, fits an [int]. *)
Lemma shl_2_small (k : Z) : - 2 ^ 25 <= k < 2 ^ 25 -> shl k 2 = 4 * k.
Proof.
  intros Hk. unfold shl. rewrite Z.shiftl_mul_pow2 by lia.
  rewrite sint32_id; [change (2 ^ 2) with 4; lia |].
  unfold is_int32. change (2 ^ 2) with 4. lia.
Qed.

End Displacement.

(** ** Control transfer *)

Section Branches.
Import Core.

(** C3.  An executed [br] (its 26-bit field is not 0) at execute pointer
    [xip] with the field sign-extending to [k] sets [fip] to [xip + 4k] in
    32-bit arithmetic, which is exactly [xip + 4k] whenever that is an [int]
    (it always is for an instruction fetched from [mem]); [branches] and
    [taken_branches] are each incremented. *)
Theorem br_target (s : state) (k : Z) :
  k = sign_extend 26 (Z.land (ir s) 0x03ffffff) ->
  Z.land (ir s) 0x03ffffff <> 0 ->
  exists s',
    br s = Ok s'
    /\ fip s' = sint32 (xip s + 4 * k)
    /\ (is_int32 (xip s + 4 * k) -> fip s' = xip s + 4 * k)
    /\ incremented (branches s) (branches s')
    /\ incremented (taken_branches s) (taken_branches s')
    /\ xip s' = xip s /\ reg s' = reg s /\ mem s' = mem s.
Proof.
  intros Hk Hnz.
  pose proof (land_field (ir s) 26 ltac:(lia)) as Hf.
  change (Z.ones 26) with 0x03ffffff in Hf.
  unfold br. destruct (Z.eqb_spec (Z.land (ir s) 0x03ffffff) 0) as [|_];
    [contradiction |].
  eexists. split; [reflexivity |]. cbn.
  rewrite extend_26, <- Hk by exact Hf.
  pose proof (sign_extend_range 26 _ ltac:(lia) Hf) as Hr.
  rewrite <- Hk in Hr. change (26 - 1) with 25 in Hr.
  rewrite shl_2_small by exact Hr.
  repeat split; try apply incr_incremented.
  intros Hfit. unfold Int32.add. now apply sint32_id.
Qed.

End Branches.

(** Closes [is_int32 z] for a closed [z]. *)
Ltac closed_int32 := vm_compute; split; [discriminate | reflexivity].

Lemma br_target_witness :
  let s := Core.set_xip 8 (Core.set_ir (sint32 0xc3ffffff) Core.init) in
  exists s', Core.br s = Ok s' /\ Core.fip s' = 4 /\ Core.branches s' = 1.
Proof.
  intros s.
  destruct (br_target s (-1) eq_refl ltac:(vm_compute; discriminate))
    as (s' & Hbr & _ & Hfip & [_ Hb] & _).
  exists s'. split; [exact Hbr |]. split.
  - apply Hfip. closed_int32.
  - apply Hb. closed_int32.
Defined.

Section ConditionalBranch.
Import Core.

Lemma shru_31 (r : Z) :
  is_int32 r -> shru r 31 = if r <? 0 then 1 else 0.
Proof.
  unfold is_int32, shru, uint32. intros Hr.
  rewrite Z.shiftr_div_pow2 by lia.
  destruct (Z.ltb_spec r 0); Z.div_mod_to_equations; lia.
Qed.

Lemma shlu_1_zero (r : Z) :
  is_int32 r -> (shlu r 1 =? 0) = (r =? 0) || (r =? - 2 ^ 31).
Proof.
  unfold is_int32, shlu, uint32. intros Hr.
  rewrite Z.shiftl_mul_pow2 by lia. change (2 ^ 1) with 2.
  destruct (Z.eqb_spec r 0) as [-> | Hnz]; [reflexivity |].
  destruct (Z.eqb_spec r (- 2 ^ 31)) as [-> | Hnm]; [reflexivity |].
  apply Z.eqb_neq. cbn [orb]. Z.div_mod_to_equations. lia.
Qed.

(** The four values of [flag]. *)
Lemma bcnd_flag_cases (r : Z) :
  is_int32 r ->
  bcnd_flag r =
    (if r <? 0 then 2 else 0)
    + (if (r =? 0) || (r =? - 2 ^ 31) then 1 else 0).
Proof.
  intros Hr. unfold bcnd_flag.
  rewrite shru_31, shlu_1_zero by assumption.
  destruct (r <? 0), ((r =? 0) || (r =? - 2 ^ 31)); reflexivity.
Qed.

(** [1 & ((unsigned int)m >> n)] reads bit [n] of [m]. *)
Lemma mask_bit (m n : Z) :
  0 <= n < 32 -> (Z.land 1 (shru m n) =? 1) = Z.testbit m n.
Proof.
  intros Hn. unfold shru, uint32.
  rewrite Z.land_comm. change 1 with (Z.ones 1) at 1.
  rewrite Z.land_ones by lia. change (2 ^ 1) with 2.
  rewrite Z.shiftr_div_pow2 by lia.
  rewrite <- (Z.mod_pow2_bits_low m 32 n) by lia.
  destruct (Z.testbit (m mod 2 ^ 32) n) eqn:Hbit.
  - apply Z.testbit_true in Hbit; [| lia]. now apply Z.eqb_eq.
  - apply Z.testbit_false in Hbit; [| lia]. apply Z.eqb_neq. lia.
Qed.

(** C2, as the code has it.  An executed [bcnd] (its 16-bit field is not 0)
    computes a condition code [flag] in 0..3 from [reg[s1]]: bit 1 is the
    sign bit, and bit 0 is 1 exactly when the low 31 bits are all zero, that
    is for the values 0 and -2^31.  [branches] is incremented.  If bit [flag]
    of the mask in the [d] field is 1, [fip] becomes [xip] plus 4 times the
    sign-extended displacement and [taken_branches] is incremented; if it is
    0, both are unchanged. *)
Theorem bcnd_behaviour (s : state) :
  is_int32 (R s (s1 s)) ->
  Z.land (ir s) 0x0000ffff <> 0 ->
  let r := R s (s1 s) in
  let flag := bcnd_flag r in
  let disp := sign_extend 16 (Z.land (ir s) 0x0000ffff) in
  exists s',
    bcnd s = Ok s'
    /\ 0 <= flag < 4
    /\ (Z.testbit flag 1 = true <-> r < 0)
    /\ (Z.testbit flag 0 = true <-> r = 0 \/ r = - 2 ^ 31)
    /\ incremented (branches s) (branches s')
    /\ (Z.testbit (d s) flag = true ->
        fip s' = sint32 (xip s + 4 * disp)
        /\ (is_int32 (xip s + 4 * disp) -> fip s' = xip s + 4 * disp)
        /\ incremented (taken_branches s) (taken_branches s'))
    /\ (Z.testbit (d s) flag = false ->
        fip s' = fip s /\ taken_branches s' = taken_branches s).
Proof.
  intros Hr Hnz r flag disp.
  pose proof (land_field (ir s) 16 ltac:(lia)) as Hf.
  change (Z.ones 16) with 0x0000ffff in Hf.
  assert (Hflag : 0 <= flag < 4
                  /\ (Z.testbit flag 1 = true <-> r < 0)
                  /\ (Z.testbit flag 0 = true <-> r = 0 \/ r = - 2 ^ 31)).
  { subst flag. rewrite bcnd_flag_cases by exact Hr. fold r.
    destruct (Z.ltb_spec r 0), (Z.eqb_spec r 0), (Z.eqb_spec r (- 2 ^ 31));
      cbn; repeat split; intros; try lia; try discriminate; auto. }
  destruct Hflag as (Hrange & Hsign & Hzero).
  unfold bcnd. destruct (Z.eqb_spec (Z.land (ir s) 0x0000ffff) 0) as [|_];
    [contradiction |].
  fold r. fold flag. cbn [d set_branches]. rewrite mask_bit by lia.
  rewrite extend_16 by exact Hf. fold disp.
  pose proof (sign_extend_range 16 _ ltac:(lia) Hf) as Hd.
  fold disp in Hd. change (16 - 1) with 15 in Hd.
  rewrite shl_2_small by lia.
  destruct (Z.testbit (d s) flag) eqn:Hbit; eexists;
    (split; [reflexivity |]); cbn;
    repeat split; try apply incr_incremented; try tauto; try discriminate.
  intros Hfit. unfold Int32.add. now apply sint32_id.
Qed.

End ConditionalBranch.

Lemma bcnd_behaviour_witness :
  let s := Core.decode (Core.set_xip 8 (Core.set_ir (sint32 0xe821fffe)
             (Core.write_reg 1 7 Core.init))) in
  exists s', Core.bcnd s = Ok s' /\ Core.fip s' = 0
             /\ Core.taken_branches s' = 1.
Proof.
  intros s.
  destruct (bcnd_behaviour s ltac:(closed_int32)
              ltac:(vm_compute; discriminate))
    as (s' & Hb & _ & _ & _ & _ & Htaken & _).
  destruct (Htaken eq_refl) as (_ & Hfip & [_ Ht]).
  exists s'. split; [exact Hb |]. split.
  - apply Hfip. closed_int32.
  - apply Ht. closed_int32.
Defined.

(** C2, as the claim words it, fails for the register value -2^31: that
    value is not zero, yet bit 0 of [flag] is 1.  With the mask 4, whose
    bit 2 selects "negative and not zero", the branch is not taken. *)
Lemma bcnd_zero_bit_counterexample :
  let s := Core.decode (Core.set_fip 4 (Core.set_ir (sint32 0xe8810002)
             (Core.write_reg 1 (- 2 ^ 31) Core.init))) in
  let r := Core.R s (Core.s1 s) in
  is_int32 r /\ r <> 0
  /\ Z.testbit (Core.bcnd_flag r) 0 = true
  /\ Core.bcnd_flag r <> flag_zero_value r
  /\ Z.testbit (Core.d s) (flag_zero_value r) = true
  /\ exists s', Core.bcnd s = Ok s'
                /\ Core.fip s' = Core.fip s
                /\ Core.taken_branches s' = Core.taken_branches s.
Proof.
  vm_compute. repeat split; try discriminate.
  eexists. repeat split.
Qed.

(** ** The cache directory *)

Section CacheDirectory.
Import Cache.

Ltac cache_simpl :=
  cbn [valid dirty tag lru cache_reads cache_writes hits misses write_backs
       set_valid set_dirty set_tag set_lru set_cache_reads set_cache_writes
       set_hits set_misses set_write_backs fst snd].

Lemma no_hit (v t a : Z) :
  ~ (v <> 0 /\ t = a) -> truthy v && (a =? t) = false.
Proof.
  intros Hmiss. apply andb_false_iff.
  destruct (Z.eqb_spec v 0) as [-> | Hv]; [now left |].
  right. apply Z.eqb_neq. intros ->. now apply Hmiss.
Qed.

Lemma replacement_bank_ext (c c2 : state) (addr_index : Z) :
  valid c2 = valid c -> lru c2 = lru c ->
  replacement_bank c2 addr_index = replacement_bank c addr_index.
Proof. intros Hv Hl. unfold replacement_bank. now rewrite Hv, Hl. Qed.

Lemma replacement_bank_spec (c : state) (addr_index : Z) :
  let v0 := rd (valid c) (0, addr_index) in
  let v1 := rd (valid c) (1, addr_index) in
  let bank := replacement_bank c addr_index in
  (bank = 0 \/ bank = 1)
  /\ (v0 = 0 -> bank = 0)
  /\ (v0 <> 0 -> v1 = 0 -> bank = 1)
  /\ (v0 <> 0 -> v1 <> 0 -> bank <> rd (lru c) addr_index).
Proof.
  intros v0 v1 bank. subst bank. unfold replacement_bank. fold v0 v1.
  destruct (truthy v0) eqn:E0;
    [apply truthy_true in E0 | apply truthy_false in E0];
    (destruct (truthy v1) eqn:E1;
       [apply truthy_true in E1 | apply truthy_false in E1]);
    (destruct (truthy (rd (lru c) addr_index)) eqn:E2;
       [apply truthy_true in E2 | apply truthy_false in E2]);
    cbn [negb]; repeat split; intros; try tauto; try congruence; auto.
Qed.

(** The directory after the miss branch, field by field. *)
Lemma cache_miss_fields (addr_index addr_tag : Z) (c : state) :
  let bank := replacement_bank c addr_index in
  cache_miss addr_index addr_tag c =
    (bank,
     mkCache (<[(bank, addr_index) := 1]> (valid c))
       (<[(bank, addr_index) := 0]> (dirty c))
       (<[(bank, addr_index) := addr_tag]> (tag c))
       (lru c) (cache_reads c) (cache_writes c) (hits c)
       (incru (misses c))
       (if truthy (rd (valid c) (bank, addr_index))
           && truthy (rd (dirty c) (bank, addr_index))
        then incru (write_backs c) else write_backs c)).
Proof.
  intros bank. unfold cache_miss.
  rewrite (replacement_bank_ext c) by reflexivity. fold bank. cache_simpl.
  destruct (truthy (rd (valid c) (bank, addr_index))
            && truthy (rd (dirty c) (bank, addr_index))); reflexivity.
Qed.

(** C1.  A call of [cache_access] that finds no valid bank with the tag of
    the address in the indexed set increments [misses] (and leaves [hits]).
    The victim bank is 0 if bank 0 is invalid, else 1 if bank 1 is invalid,
    else the bank that differs from the one recorded in [lru] for the set.
    [write_backs] is incremented exactly when the victim was valid and
    dirty.  Afterwards the victim is valid, holds the tag of the address,
    is dirty exactly when [type] is 1 (a write), and [lru] records it. *)
Theorem cache_access_miss (address type : Z) (c : state) :
  let addr_index := Z.land (shru address 3) 0x3f in
  let addr_tag := shru address 9 in
  let v0 := rd (valid c) (0, addr_index) in
  let v1 := rd (valid c) (1, addr_index) in
  ~ (v0 <> 0 /\ rd (tag c) (0, addr_index) = addr_tag) ->
  ~ (v1 <> 0 /\ rd (tag c) (1, addr_index) = addr_tag) ->
  let c' := cache_access address type c in
  exists victim,
    (victim = 0 \/ victim = 1)
    /\ (v0 = 0 -> victim = 0)
    /\ (v0 <> 0 -> v1 = 0 -> victim = 1)
    /\ (v0 <> 0 -> v1 <> 0 -> victim <> rd (lru c) addr_index)
    /\ incremented_u (misses c) (misses c')
    /\ hits c' = hits c
    /\ (rd (valid c) (victim, addr_index) <> 0
        /\ rd (dirty c) (victim, addr_index) <> 0 ->
        incremented_u (write_backs c) (write_backs c'))
    /\ (~ (rd (valid c) (victim, addr_index) <> 0
           /\ rd (dirty c) (victim, addr_index) <> 0) ->
        write_backs c' = write_backs c)
    /\ rd (valid c') (victim, addr_index) = 1
    /\ rd (tag c') (victim, addr_index) = addr_tag
    /\ (type = 1 -> rd (dirty c') (victim, addr_index) = 1)
    /\ (type <> 1 -> rd (dirty c') (victim, addr_index) = 0)
    /\ rd (lru c') addr_index = victim.
Proof.
  intros addr_index addr_tag v0 v1 Hm0 Hm1 c'.
  apply no_hit in Hm0, Hm1.
  pose proof (replacement_bank_spec c addr_index) as Hbank.
  cbv zeta in Hbank. fold v0 v1 in Hbank.
  exists (replacement_bank c addr_index).
  set (bank := replacement_bank c addr_index) in *.
  destruct Hbank as (Hb01 & Hb0 & Hb1 & Hb2).
  assert (Hc' : c' =
    let wb := truthy (rd (valid c) (bank, addr_index))
              && truthy (rd (dirty c) (bank, addr_index)) in
    mkCache (<[(bank, addr_index) := 1]> (valid c))
      (if type =? 1
       then <[(bank, addr_index) := 1]>
              (<[(bank, addr_index) := 0]> (dirty c))
       else <[(bank, addr_index) := 0]> (dirty c))
      (<[(bank, addr_index) := addr_tag]> (tag c))
      (<[addr_index := bank]> (lru c))
      (if type =? 0 then incru (cache_reads c) else cache_reads c)
      (if type =? 0 then cache_writes c else incru (cache_writes c))
      (hits c) (incru (misses c))
      (if wb then incru (write_backs c) else write_backs c)).
  { subst c'. unfold cache_access. fold addr_index. fold addr_tag.
    destruct (type =? 0); cache_simpl; fold v0 v1; rewrite Hm0, Hm1;
      rewrite cache_miss_fields; cache_simpl;
      (rewrite (replacement_bank_ext c) by reflexivity); fold bank;
      destruct (type =? 1); reflexivity. }
  rewrite Hc'. cache_simpl. clear Hc'.
  split; [exact Hb01 |]. split; [exact Hb0 |].
  split; [exact Hb1 |]. split; [exact Hb2 |].
  split; [apply incru_incremented |]. split; [reflexivity |].
  split.
  { intros [Hv Hd]. apply truthy_true in Hv, Hd. rewrite Hv, Hd.
    apply incru_incremented. }
  split.
  { intros Hn.
    destruct (truthy (rd (valid c) (bank, addr_index))) eqn:Ev;
      [| reflexivity].
    destruct (truthy (rd (dirty c) (bank, addr_index))) eqn:Ed;
      [| reflexivity].
    exfalso. apply Hn. split; now apply truthy_true. }
  split; [apply rd_insert_eq |]. split; [apply rd_insert_eq |].
  split. { intros ->. apply rd_insert_eq. }
  split.
  { intros Hne. apply Z.eqb_neq in Hne. rewrite Hne. apply rd_insert_eq. }
  apply rd_insert_eq.
Qed.
End CacheDirectory.

(** Two writes fill both banks of set 0; a read with a third tag then
    misses, evicts bank 0 (bank 1 was serviced last) and writes it back. *)
Lemma cache_access_miss_witness :
  let c := Cache.cache_access 0x200 1
             (Cache.cache_access 0x000 1
                (Cache.cache_init Cache.zeroed)) in
  let c' := Cache.cache_access 0x400 0 c in
  exists victim,
    victim <> rd (Cache.lru c) 0
    /\ Cache.misses c' = Cache.misses c + 1
    /\ Cache.write_backs c' = Cache.write_backs c + 1
    /\ rd (Cache.valid c') (victim, 0) = 1
    /\ rd (Cache.tag c') (victim, 0) = 2
    /\ rd (Cache.dirty c') (victim, 0) = 0
    /\ rd (Cache.lru c') 0 = victim.
Proof.
  intros c c'.
  assert (Hmiss0 : ~ (rd (Cache.valid c) (0, Z.land (shru 0x400 3) 0x3f) <> 0
                      /\ rd (Cache.tag c) (0, Z.land (shru 0x400 3) 0x3f)
                         = shru 0x400 9)).
  { intros [_ Htag]. vm_compute in Htag. discriminate Htag. }
  assert (Hmiss1 : ~ (rd (Cache.valid c) (1, Z.land (shru 0x400 3) 0x3f) <> 0
                      /\ rd (Cache.tag c) (1, Z.land (shru 0x400 3) 0x3f)
                         = shru 0x400 9)).
  { intros [_ Htag]. vm_compute in Htag. discriminate Htag. }
  destruct (cache_access_miss 0x400 0 c Hmiss0 Hmiss1)
    as (victim & Hb01 & _ & _ & Hlru & [_ Hmi] & _ & Hwb & _ & Hv & Ht
        & _ & Hd & Hl).
  exists victim.
  assert (Hvictim : victim = 0).
  { destruct Hb01 as [H0 | H1]; [exact H0 |].
    exfalso. apply Hlru.
    - vm_compute. discriminate.
    - vm_compute. discriminate.
    - rewrite H1. vm_compute. reflexivity. }
  split. { apply Hlru; vm_compute; discriminate. }
  split. { apply Hmi. vm_compute. split; [discriminate | reflexivity]. }
  split.
  { apply Hwb; [| vm_compute; split; [discriminate | reflexivity]].
    rewrite Hvictim. vm_compute. split; discriminate. }
  split; [exact Hv |]. split; [exact Ht |].
  split; [apply Hd; discriminate | exact Hl].
Defined.

(** ** The loop body *)

Section LoopBody.
Import Core.

(** C4.  Whenever one turn of the loop completes, in either program,
    [reg[0]] reads 0 afterwards, whatever the instruction wrote and wherever
    it was fetched from. *)
Theorem r0_zero_after_instruction
  (beside : state -> Z -> Z) (cbeside : CacheSim.state -> Z -> Z)
  (s s' : state) (cs cs' : CacheSim.state) :
  (Sim.step beside s = Ok s' -> R s' 0 = 0)
  /\ (CacheSim.step cbeside cs = Ok cs' -> R (CacheSim.core cs') 0 = 0).
Proof.
  split.
  - unfold Sim.step, bind.
    destruct (Sim.dispatch _) as [e |]; [| discriminate].
    intros [= <-]. apply R_zero_r0.
  - unfold CacheSim.step, CacheSim.pure_core, bind.
    destruct (CacheSim.dispatch _) as [e |]; [| discriminate].
    intros [= <-]. apply R_zero_r0.
Qed.

End LoopBody.

(** [add r0,r1,5] with 37 in [r1] targets register 0; the handler stores 42
    there and the loop body clears it again. *)
Lemma r0_zero_after_instruction_witness :
  let s := Core.set_mem {[ 0 := 0x70010005 ]}
             (Core.write_reg 1 37 Core.init) in
  let f := Core.fetch (beside_zero s) s in
  exists s',
    Core.d (Core.decode f) = 0
    /\ Core.R (Core.imm_add (Core.decode f)) 0 = 42
    /\ Sim.step beside_zero s = Ok s'
    /\ Core.R s' 0 = 0.
Proof.
  intros s f.
  destruct (Sim.step beside_zero s) as [s' |] eqn:Hs;
    [| vm_compute in Hs; discriminate Hs].
  exists s'. split; [reflexivity |]. split; [reflexivity |].
  split; [reflexivity |].
  exact (proj1 (r0_zero_after_instruction beside_zero beside_cache_counters
                  s s' (CacheSim.mkSim s Cache.zeroed)
                  (CacheSim.mkSim s Cache.zeroed)) Hs).
Defined.

(** ** Memory accesses *)

Section MemoryAccess.
Import Core.

Lemma word_addr_ok_iff (w : Z) :
  word_addr_ok w = true <-> 0 <= w < MEM_SIZE_IN_WORDS.
Proof.
  unfold word_addr_ok. rewrite andb_true_iff, Z.geb_le, Z.ltb_lt. lia.
Qed.

(** [>> 2] drops the two low bits: the word index of an address is that of
    the aligned address below it. *)
Lemma sar_2_floor (ea : Z) : sar ea 2 = ea / 4.
Proof. unfold sar. now rewrite Z.shiftr_div_pow2 by lia. Qed.

Lemma sar_2_aligned (ea : Z) : sar (ea - ea mod 4) 2 = sar ea 2.
Proof.
  rewrite !sar_2_floor. Z.div_mod_to_equations. lia.
Qed.

Lemma read_mem_aligned (ea r : Z) (s : state) :
  read_mem ea r s = read_mem (ea - ea mod 4) r s.
Proof. unfold read_mem. now rewrite sar_2_aligned. Qed.

Lemma write_mem_aligned (ea r : Z) (s : state) :
  write_mem ea r s = write_mem (ea - ea mod 4) r s.
Proof. unfold write_mem. now rewrite sar_2_aligned. Qed.

Lemma read_mem_ok (ea r : Z) (s : state) :
  0 <= sar ea 2 < MEM_SIZE_IN_WORDS ->
  exists s',
    read_mem ea r s = Ok s'
    /\ R s' r = M s (sar ea 2)
    /\ mem s' = mem s
    /\ incremented (memory_reads s) (memory_reads s').
Proof.
  intros Hw. apply word_addr_ok_iff in Hw. unfold read_mem. rewrite Hw.
  eexists. split; [reflexivity |]. split; [| split].
  - unfold R, write_reg. cbn. apply rd_insert_eq.
  - reflexivity.
  - apply incr_incremented.
Qed.

Lemma write_mem_ok (ea r : Z) (s : state) :
  0 <= sar ea 2 < MEM_SIZE_IN_WORDS ->
  exists s',
    write_mem ea r s = Ok s'
    /\ M s' (sar ea 2) = R s r
    /\ (forall j, j <> sar ea 2 -> M s' j = M s j)
    /\ reg s' = reg s
    /\ incremented (memory_writes s) (memory_writes s').
Proof.
  intros Hw. apply word_addr_ok_iff in Hw. unfold write_mem. rewrite Hw.
  eexists. split; [reflexivity |]. split; [| split; [| split]].
  - unfold M. cbn. apply rd_insert_eq.
  - intros j Hj. unfold M. cbn. apply rd_insert_ne. congruence.
  - reflexivity.
  - apply incr_incremented.
Qed.

(** The only failure of an access is the bounds [assert]. *)
Lemma access_fails_out_of_bounds (ea r : Z) (s : state) :
  ~ 0 <= sar ea 2 < MEM_SIZE_IN_WORDS ->
  read_mem ea r s = Stop assert_failed
  /\ write_mem ea r s = Stop assert_failed.
Proof.
  intros Hw. unfold read_mem, write_mem.
  destruct (word_addr_ok (sar ea 2)) eqn:E; [| now split].
  apply word_addr_ok_iff in E. contradiction.
Qed.

(** Every load and store handler is [read_mem] or [write_mem] at its
    effective address and destination field. *)
Lemma plain_handler_access (i : mem_instr) (s : state) :
  plain_handler i s =
    (if is_load i then read_mem else write_mem)
      (effective_address i s) (d s) s.
Proof.
  destruct i; cbn; try reflexivity.
  - unfold Sim.ld. now destruct (truthy (scaled s)).
  - unfold Sim.st. now destruct (truthy (scaled s)).
Qed.

(** The handlers of the program with cache do the same to the processor
    globals, and then call [cache_access]. *)
Lemma cached_handler_access (i : mem_instr) (cs : CacheSim.state) :
  cached_handler i cs =
    do s' <- plain_handler i (CacheSim.core cs);
    Ok (CacheSim.mkSim s'
          (Cache.cache_access (effective_address i (CacheSim.core cs))
             (if is_load i then 0 else 1) (CacheSim.cache cs))).
Proof.
  destruct cs as [s c].
  destruct i; cbn;
    unfold CacheSim.imm_ld, CacheSim.imm_st, CacheSim.ld, CacheSim.st,
      Sim.imm_ld, Sim.imm_st, Sim.ld, Sim.st, CacheSim.on_core,
      CacheSim.with_cache_access, bind; cbn;
    try destruct (truthy (scaled s));
    match goal with
    | |- context [read_mem ?a ?r ?s] => destruct (read_mem a r s)
    | |- context [write_mem ?a ?r ?s] => destruct (write_mem a r s)
    end; reflexivity.
Qed.

(** C10.  For each load and store instruction with effective address [ea]
    whose word index [ea >> 2] lies inside [mem], the handler completes,
    whether or not [ea] is a multiple of 4: [ea >> 2] is the index of the
    aligned word containing [ea], a load puts that word of [mem] into
    [reg[d]], a store puts [reg[d]] into that word and changes no other, and
    the program with cache does the same to registers and memory. *)
Theorem unaligned_access_truncates (i : mem_instr) (s : state)
  (c : Cache.state) :
  let ea := effective_address i s in
  let word_addr := Z.shiftr ea 2 in
  0 <= word_addr < MEM_SIZE_IN_WORDS ->
  4 * word_addr = ea - ea mod 4
  /\ exists s',
       plain_handler i s = Ok s'
       /\ rmap CacheSim.core (cached_handler i (CacheSim.mkSim s c)) = Ok s'
       /\ (is_load i = true ->
           R s' (d s) = M s word_addr
           /\ mem s' = mem s
           /\ incremented (memory_reads s) (memory_reads s'))
       /\ (is_load i = false ->
           M s' word_addr = R s (d s)
           /\ (forall j, j <> word_addr -> M s' j = M s j)
           /\ reg s' = reg s
           /\ incremented (memory_writes s) (memory_writes s')).
Proof.
  intros ea word_addr Hw. split.
  - subst word_addr. rewrite Z.shiftr_div_pow2 by lia.
    change (2 ^ 2) with 4. Z.div_mod_to_equations. lia.
  - rewrite cached_handler_access. cbn [CacheSim.core CacheSim.cache].
    rewrite plain_handler_access. fold ea. destruct (is_load i).
    + destruct (read_mem_ok ea (d s) s Hw) as (s' & Hr & Hreg & Hmem & Hcnt).
      exists s'. rewrite Hr. cbn [bind rmap CacheSim.core].
      split; [reflexivity |]. split; [reflexivity |].
      split; [intros _ | discriminate].
      split; [exact Hreg | split; [exact Hmem | exact Hcnt]].
    + destruct (write_mem_ok ea (d s) s Hw)
        as (s' & Hr & Hm & Hoth & Hreg & Hcnt).
      exists s'. rewrite Hr. cbn [bind rmap CacheSim.core].
      split; [reflexivity |]. split; [reflexivity |].
      split; [discriminate | intros _].
      split; [exact Hm |]. split; [exact Hoth |].
      split; [exact Hreg | exact Hcnt].
Qed.

End MemoryAccess.

(** [ld r2,r0,0x13]: the address 0x13 is not a multiple of 4; the load
    completes and delivers the word at index 4, the one at address 0x10. *)
Lemma unaligned_access_truncates_witness :
  let s := Core.decode (Core.set_ir 0x14400013
             (Core.set_mem {[ 4 := 99 ]} Core.init)) in
  effective_address op_imm_ld s = 0x13
  /\ exists s', Sim.imm_ld s = Ok s' /\ Core.R s' 2 = 99.
Proof.
  intros s. split; [reflexivity |].
  destruct (unaligned_access_truncates op_imm_ld s Cache.zeroed)
    as (_ & s' & Hld & _ & Hload & _).
  - vm_compute. split; [discriminate | reflexivity].
  - exists s'. split; [exact Hld |].
    destruct (Hload eq_refl) as (Hr & _). exact Hr.
Defined.

(** ** The loader *)

Section Loader.
Import Core.

Lemma set_mem_set_mem (m m' : gmap Z Z) (s : state) :
  set_mem m (set_mem m' s) = set_mem m s.
Proof. reflexivity. Qed.

Lemma set_mem_same (s : state) : set_mem (mem s) s = s.
Proof. now destruct s. Qed.

Lemma get_mem_from_ok (input : list Z) : forall (count : Z) (s : state),
  count + Z.of_nat (length input) <= INPUT_WORD_LIMIT + 1 ->
  get_mem_from count input s = Ok (set_mem (loaded count input (mem s)) s).
Proof.
  induction input as [| w rest IH]; intros count s Hlen; cbn [get_mem_from loaded].
  - now rewrite set_mem_same.
  - cbn [length] in Hlen. unfold INPUT_WORD_LIMIT in *.
    destruct (Z.gtb_spec count 255) as [Hgt | _]; [lia |].
    rewrite IH by (unfold INPUT_WORD_LIMIT; lia). reflexivity.
Qed.

Lemma get_mem_from_overflow (input : list Z) : forall (count : Z) (s : state),
  count <= INPUT_WORD_LIMIT + 1 ->
  INPUT_WORD_LIMIT + 1 < count + Z.of_nat (length input) ->
  get_mem_from count input s = Stop (exit_with 0 too_many_words).
Proof.
  induction input as [| w rest IH]; intros count s Hc Hlen; cbn [get_mem_from].
  - cbn [length] in Hlen. lia.
  - cbn [length] in Hlen. unfold INPUT_WORD_LIMIT in *.
    destruct (Z.gtb_spec count 255) as [Hgt | Hle]; [reflexivity |].
    apply IH; unfold INPUT_WORD_LIMIT; lia.
Qed.

Lemma loaded_below (input : list Z) : forall (count j : Z) (m : gmap Z Z),
  j < count -> loaded count input m !! j = m !! j.
Proof.
  induction input as [| w rest IH]; intros count j m Hj; cbn [loaded].
  - reflexivity.
  - rewrite IH by lia. apply lookup_insert_ne. lia.
Qed.

Lemma loaded_at (input : list Z) : forall (count : Z) (m : gmap Z Z) (i : nat) (w : Z),
  input !! i = Some w ->
  loaded count input m !! (count + Z.of_nat i) = Some (sint32 w).
Proof.
  induction input as [| w0 rest IH]; intros count m i w Hi; [discriminate |].
  cbn [loaded]. destruct i as [| i].
  - injection Hi as ->. rewrite Z.add_0_r, loaded_below by lia.
    apply lookup_insert_eq.
  - replace (count + Z.of_nat (S i)) with (count + 1 + Z.of_nat i) by lia.
    now apply IH.
Qed.

(** Up to 256 words are accepted and stored at the word indices 0, 1, ...
    in input order; nothing else of the state changes. *)
Lemma get_mem_accepts (input : list Z) :
  (length input <= 256)%nat ->
  get_mem input init = Ok (set_mem (loaded 0 input ∅) init)
  /\ forall (i : nat) (w : Z),
       input !! i = Some w ->
       rd (loaded 0 input ∅) (Z.of_nat i) = sint32 w.
Proof.
  intros Hlen. split.
  - unfold get_mem. apply get_mem_from_ok. unfold INPUT_WORD_LIMIT. lia.
  - intros i w Hi. unfold rd.
    now rewrite <- (Z.add_0_l (Z.of_nat i)), (loaded_at _ _ _ _ _ Hi).
Qed.

(** C8, as the code has it.  When the input holds more than 256 words,
    [get_mem] reports "too many words loaded" and calls [exit( 0 )]: both
    programs end with exit code 0 before the first instruction is fetched,
    whatever the fuel. *)
Theorem load_overflow_exits_zero
  (beside : state -> Z -> Z) (cbeside : CacheSim.state -> Z -> Z)
  (input : list Z) (fuel : nat) :
  (256 < length input)%nat ->
  get_mem input init = Stop (exit_with 0 too_many_words)
  /\ Sim.main beside fuel input = Sim.Ended (exit_with 0 too_many_words)
  /\ CacheSim.main cbeside fuel input
     = CacheSim.Ended (exit_with 0 too_many_words).
Proof.
  intros Hlen.
  assert (Hload : get_mem input init = Stop (exit_with 0 too_many_words)).
  { unfold get_mem. apply get_mem_from_overflow; unfold INPUT_WORD_LIMIT; lia. }
  unfold Sim.main, CacheSim.main. now rewrite Hload.
Qed.

End Loader.

Lemma load_overflow_exits_zero_witness :
  (256 < length (repeat 0 257))%nat
  /\ Sim.main beside_zero 5 (repeat 0 257)
     = Sim.Ended (exit_with 0 too_many_words).
Proof.
  assert (Hlen : (256 < length (repeat 0 257))%nat)
    by (vm_compute; reflexivity).
  split; [exact Hlen |].
  exact (proj1 (proj2 (load_overflow_exits_zero beside_zero
                         beside_cache_counters (repeat 0 257) 5 Hlen))).
Defined.

(** C8, as the claim words it, fails on an input of 257 words: the process
    does end in the loader, but with exit code 0. *)
Lemma load_overflow_nonzero_counterexample :
  ~ exists (beside : Core.state -> Z -> Z) (code : Z) (r : report),
      Sim.main beside 0 (repeat 0 257) = Sim.Ended (exit_with code r)
      /\ code <> 0.
Proof.
  intros (beside & code & r & Hmain & Hcode). vm_compute in Hmain.
  injection Hmain as <- _. now apply Hcode.
Qed.

(** ** The load-and-halt scenario *)

Section Scenario.
Import Core.
Local Arguments rd : simpl never.

Variable beside : state -> Z -> Z.

(** The first turn of the loop on an image that starts with
    [ld r1,r0,0x10]. *)
Lemma step_load (m : gmap Z Z) :
  rd m 0 = 0x14200010 ->
  Sim.step beside (set_mem m init) =
    Ok (mkState m (<[0 := 0]> (<[1 := rd m 4]> ∅)) 0 4 0 0x14200010
          0x05 0 1 0 0x10 0x10 0 1 1 0 0 0).
Proof.
  intros H0. unfold Sim.step, fetch, fetched_word, M.
  cbn [fip set_mem init mem]. change (word_addr_ok (sar 0 2)) with true.
  cbv iota. change (sar 0 2) with 0. rewrite H0. reflexivity.
Qed.

(** The second turn, when the word at address 4 is the halt instruction. *)
Lemma step_halt (m r : gmap Z Z) :
  rd m 1 = 0 ->
  Sim.step beside (mkState m r 0 4 0 0x14200010 0x05 0 1 0 0x10 0x10 0 1 1 0 0 0) =
    Ok (mkState m (<[0 := 0]> r) 4 8 1 0 0 0 0 0 0 0 0 2 1 0 0 0).
Proof.
  intros H1. unfold Sim.step, fetch, fetched_word, M. cbn [fip mem].
  change (word_addr_ok (sar 4 2)) with true. cbv iota.
  change (sar 4 2) with 1. rewrite H1. reflexivity.
Qed.

Lemma run_load_halt (m : gmap Z Z) (fuel : nat) :
  rd m 0 = 0x14200010 -> rd m 1 = 0 ->
  exists final,
    Sim.run beside (S (S fuel)) (set_mem m init) = Sim.Halted final
    /\ statistics_of final = mkStats 2 1 0 0 0
    /\ R final 1 = M final 4.
Proof.
  intros H0 H1. eexists. split; [| split].
  - unfold Sim.run; fold Sim.run.
    change (truthy (halt_flag (set_mem m init))) with false. cbv iota.
    rewrite (step_load m H0).
    cbn [halt_flag]. change (truthy 0) with false. cbv iota.
    rewrite (step_halt m _ H1). unfold Sim.run.
    cbn [halt_flag]. destruct fuel; reflexivity.
  - reflexivity.
  - unfold R, M. cbn [reg mem]. rewrite rd_insert_ne by discriminate.
    rewrite rd_insert_ne by discriminate. apply rd_insert_eq.
Qed.

(** The first turn of the loop on an image that starts with 0x5c810010:
    the primary opcode is 0x17. *)
Lemma step_unknown (m : gmap Z Z) :
  rd m 0 = 0x5c810010 ->
  Sim.step beside (set_mem m init) =
    Stop (exit_with (-1) (unknown_instruction 0x5c810010 0x17 0 4 1 0x10)).
Proof.
  intros H0. unfold Sim.step, fetch, fetched_word, M.
  cbn [fip set_mem init mem]. change (word_addr_ok (sar 0 2)) with true.
  cbv iota. change (sar 0 2) with 0. rewrite H0. reflexivity.
Qed.

Lemma run_unknown (m : gmap Z Z) (fuel : nat) :
  rd m 0 = 0x5c810010 ->
  Sim.run beside (S fuel) (set_mem m init) =
    Sim.Stopped
      (exit_with (-1) (unknown_instruction 0x5c810010 0x17 0 4 1 0x10)).
Proof.
  intros H0. unfold Sim.run; fold Sim.run.
  change (truthy (halt_flag (set_mem m init))) with false. cbv iota.
  now rewrite (step_unknown m H0).
Qed.

(** C6, as the code has it.  An image of at most 256 words that begins with
    0x14200010 ([ld r1,r0,0x10]) and 0 (halt) runs to completion, given fuel
    for two turns of the loop, and reports 2 instruction fetches, 1 data
    word read, 0 written and 0 branches.  An image that begins with
    0x5c810010 does not: the primary opcode of that word is 0x17, which is no
    instruction of the subset, and the first turn of the loop ends the
    process in [unknown_op] with [exit( -1 )].  Both runs fetch from inside
    [mem] only, so this holds whatever lies beside the array. *)
Theorem load_halt_scenario (rest : list Z) (fuel : nat) :
  (length rest <= 254)%nat ->
  (exists final,
     Sim.main beside (S (S fuel)) (0x14200010 :: 0x00000000 :: rest)
       = Sim.Returned 0 (mkStats 2 1 0 0 0) final
     /\ R final 1 = M final 4)
  /\ Sim.main beside (S fuel) (0x5c810010 :: 0x00000000 :: rest)
       = Sim.Ended
           (exit_with (-1)
              (unknown_instruction 0x5c810010 0x17 0 4 1 0x10)).
Proof.
  intros Hlen. split.
  - destruct (get_mem_accepts (0x14200010 :: 0 :: rest)) as [Hload Hwords];
      [cbn [length]; lia |].
    pose proof (Hwords 0%nat _ eq_refl) as H0.
    pose proof (Hwords 1%nat _ eq_refl) as H1.
    destruct (run_load_halt _ fuel H0 H1) as (final & Hrun & Hstat & Hr1).
    exists final. unfold Sim.main. rewrite Hload, Hrun, Hstat.
    split; [reflexivity | exact Hr1].
  - destruct (get_mem_accepts (0x5c810010 :: 0 :: rest)) as [Hload Hwords];
      [cbn [length]; lia |].
    pose proof (Hwords 0%nat _ eq_refl) as H0.
    unfold Sim.main. now rewrite Hload, (run_unknown _ fuel H0).
Qed.

End Scenario.

Lemma load_halt_scenario_witness :
  (length [0; 0; 77] <= 254)%nat
  /\ exists final,
       Sim.main beside_zero 2 [0x14200010; 0x00000000; 0; 0; 77]
         = Sim.Returned 0 (Core.mkStats 2 1 0 0 0) final
       /\ Core.R final 1 = Core.M final 4.
Proof.
  assert (Hlen : (length [0; 0; 77] <= 254)%nat) by (cbn; lia).
  split; [exact Hlen |].
  exact (proj1 (load_halt_scenario beside_zero [0; 0; 77] 0 Hlen)).
Defined.

(** C6, as the claim words it, fails: on the four-word image
    [0x5c810010, 0, 0, 0] the simulator never returns from [main] with
    statistics, whatever the fuel. *)
Lemma scenario_image_counterexample :
  ~ exists (beside : Core.state -> Z -> Z) (fuel : nat) (code : Z)
      (st : Core.statistics) (final : Core.state),
      Sim.main beside fuel [0x5c810010; 0x00000000; 0; 0]
        = Sim.Returned code st final.
Proof.
  intros (beside & fuel & code & st & final & Hmain).
  destruct fuel; vm_compute in Hmain; discriminate Hmain.
Qed.

(** ** The program with cache refines the plain program *)

Section Refinement.
Import Core.








Variable beside : state -> Z -> Z.
Variable cbeside : CacheSim.state -> Z -> Z.








End Refinement.


